(** * Trophic levels of a directed graph: a shallow embedding

    This development embeds [networkx/algorithms/centrality/trophic.py]
    and states its documented properties.  Weights and levels are exact
    rationals ([Qc]); numpy arrays are lists (vectors) and lists of rows
    (matrices); the dictionary of levels is a [gmap].

    The arithmetic of the program is floating point.  Rounding is left out
    where it only perturbs a result; it is kept where it decides what the
    program does, namely whether [np.linalg.inv] notices that a matrix is
    singular (see [float_inv]). *)

From Stdlib Require Import QArith Qcanon Lia List Permutation.
From Stdlib Require Import Reals Qreals Lra.
From stdpp Require Import gmap strings list.

Local Open Scope Qc_scope.

(** ** Dense vectors and matrices *)

Abbreviation vector := (list Qc).
Abbreviation matrix := (list (list Qc)).

Definition Qcsum (v : vector) : Qc := foldr Qcplus 0 v.

(** [np.sum(a, axis=1)] *)
Definition sum_axis1 (a : matrix) : vector := map Qcsum a.

Definition dot (u v : vector) : Qc := Qcsum (zip_with Qcmult u v).

Definition mat_vec (m : matrix) (v : vector) : vector :=
  map (fun r => dot r v) m.

Fixpoint unit_vec (n i : nat) : vector :=
  match n with
  | O => []
  | S n' =>
      match i with
      | O => 1 :: repeat 0 n'
      | S i' => 0 :: unit_vec n' i'
      end
  end.

(** [np.eye(n)] *)
Definition eye (n : nat) : matrix := map (unit_vec n) (seq 0 n).

(** [a - b] on two arrays of the same shape *)
Definition mat_sub (a b : matrix) : matrix :=
  zip_with (zip_with Qcminus) a b.

(** [.T] of an array with [n] columns *)
Definition transpose (n : nat) (a : matrix) : matrix :=
  map (fun j => map (fun r => nth j r 0) a) (seq 0 n).

(** [x[mask]] for a boolean mask *)
Fixpoint mask_select {A} (mask : list bool) (x : list A) : list A :=
  match mask, x with
  | b :: mask', xi :: x' =>
      if b then xi :: mask_select mask' x' else mask_select mask' x'
  | _, _ => []
  end.

(** ** Matrix inversion

    The exact inverse, by Gauss-Jordan elimination on the rows of the
    augmented matrix [(a | b)], started at [(m | I)].  It answers [None]
    when the matrix is not square or when some column has no pivot, that
    is, when the matrix has no inverse. *)

Abbreviation arow := (list Qc * list Qc)%type.

Definition vscale (c : Qc) (v : vector) : vector := map (Qcmult c) v.

Definition vaxpy (c : Qc) (x p : vector) : vector :=
  zip_with (fun xi pi => xi - c * pi) x p.

Definition row_scale (c : Qc) (r : arow) : arow :=
  (vscale c r.1, vscale c r.2).

Definition row_elim (k : nat) (p x : arow) : arow :=
  let c := nth k x.1 0 in (vaxpy c x.1 p.1, vaxpy c x.2 p.2).

Fixpoint find_pivot (k : nat) (todo : list arow) : option (arow * list arow) :=
  match todo with
  | [] => None
  | r :: rest =>
      if decide (nth k r.1 0 = 0) then
        match find_pivot k rest with
        | Some (p, others) => Some (p, r :: others)
        | None => None
        end
      else Some (r, rest)
  end.

Fixpoint gauss_jordan (steps k : nat) (done todo : list arow)
  : option (list arow) :=
  match steps with
  | O => Some done
  | S steps' =>
      match find_pivot k todo with
      | None => None
      | Some (p, others) =>
          let p' := row_scale (/ nth k p.1 0) p in
          gauss_jordan steps' (S k)
            (map (row_elim k p') done ++ [p'])
            (map (row_elim k p') others)
      end
  end.

(** Invariants of the elimination on rows of width [n]. *)
Definition wf_row (n : nat) (r : arow) : Prop :=
  length r.1 = n /\ length r.2 = n.

(** A linear functional on augmented rows: the left part against [v]
    agrees with the right part against [w].  Row operations neither create
    nor destroy such an agreement. *)
Definition agrees (v w : vector) (r : arow) : Prop := dot r.1 v = dot r.2 w.

Definition delta (i j : nat) : Qc := if decide (i = j) then 1 else 0.

(** After [k] steps the first [k] columns of the left part are those of
    the identity on the rows already used as pivots, and zero below. *)
Definition reduced (k : nat) (done todo : list arow) : Prop :=
  length done = k /\
  (forall j r c, done !! j = Some r -> (c < k)%nat -> nth c r.1 0 = delta j c) /\
  (forall r c, r ∈ todo -> (c < k)%nat -> nth c r.1 0 = 0).


Definition is_square (m : matrix) : bool :=
  forallb (fun r => Nat.eqb (length r) (length m)) m.

Definition linalg_inv (m : matrix) : option matrix :=
  if is_square m then
    map snd <$> gauss_jordan (length m) 0 [] (zip m (eye (length m)))
  else None.

(** A square system is singular when it sends a nonzero vector to zero. *)
Definition singular (m : matrix) : Prop :=
  exists v, length v = length m /\ v <> repeat 0 (length m) /\
            mat_vec m v = repeat 0 (length m).

(** *** [np.linalg.inv]

    The routine eliminates in float64 and raises [LinAlgError] only when
    it meets a pivot that is exactly zero.  On a matrix that has an
    inverse it is modelled by that inverse.  On a square matrix that has
    none, rounding decides: either a pivot comes out exactly zero and the
    routine raises, or it does not and the routine answers an array of the
    same shape whose entries mean nothing.  Which of the two happens is a
    parameter of the model: [fl m = None] when the routine raises on [m],
    [fl m = Some g] when it answers the array of entries [g i j]. *)
Definition float_inv : Type := matrix -> option (nat -> nat -> Qc).

(** Exact arithmetic: every matrix without inverse is noticed. *)
Definition exact_arithmetic : float_inv := fun _ => None.


Definition tabulate (n : nat) (g : nat -> nat -> Qc) : matrix :=
  map (fun i => map (fun j => g i j) (seq 0 n)) (seq 0 n).

(** What [np.linalg.inv(m)] answers, [None] standing for [LinAlgError]. *)
Definition inv_answer (fl : float_inv) (m : matrix) : option matrix :=
  match linalg_inv m with
  | Some ninv => Some ninv
  | None => if is_square m then tabulate (length m) <$> fl m else None
  end.

(** ** Errors, events and the computation monad

    [trophic_levels] either returns a dictionary or raises.  A run also
    records which array primitives it called, so that statements about
    what is attempted before a failure can be made. *)

Inductive error : Type :=
  | NetworkXNotImplemented   (* raised by [not_implemented_for] *)
  | LinAlgError              (* raised by [np.linalg.inv] *)
  | IndexError.              (* raised by [y[i]] out of range *)

Inductive event : Type :=
  | EvAdjacencyMatrix (n : nat)   (* [nx.adjacency_matrix] on [n] nodes *)
  | EvLinalgInv (n : nat).        (* [np.linalg.inv] on [n] rows *)

Definition comp (A : Type) : Type := (list event * (error + A))%type.

Definition raise {A} (e : error) : comp A := ([], inl e).
Definition emit (ev : event) : comp unit := ([ev], inr tt).

#[global] Instance comp_ret : MRet comp := fun A x => ([], inr x).

#[global] Instance comp_bind : MBind comp := fun A B k c =>
  match c with
  | (t, inl e) => (t, inl e)
  | (t, inr x) => let '(t', r) := k x in (t ++ t', r)
  end.

Definition trace {A} (c : comp A) : list event := c.1.
Definition outcome {A} (c : comp A) : error + A := c.2.

(** ** Graphs *)

Section Trophic.

Context {node : Type} `{Countable node}.

(** A networkx graph: the directedness of its class, its nodes in
    insertion order, and the attribute dictionary of each edge [(u, v)]. *)
Record Graph : Type := {
  is_directed : bool;
  nodes : list node;
  adj : gmap (node * node) (gmap string Qc)
}.

(** Modelled from the spec: the decorator [not_implemented_for] of
    [networkx.utils] is not among the sources; an undirected graph is a
    capability mismatch that fails before the body runs. *)
Definition not_implemented_for_undirected {A}
    (G : Graph) (body : comp A) : comp A :=
  if is_directed G then body else raise NetworkXNotImplemented.

(** Modelled from the spec: the weight that an attribute dictionary gives
    an edge, one if the attribute is absent or no attribute is selected. *)
Definition attr_weight (weight : option string) (attrs : gmap string Qc) : Qc :=
  match weight with
  | None => 1
  | Some key => default 1 (attrs !! key)
  end.

(** Modelled from the spec: the weight of the edge [u -> v], zero if there
    is no edge. *)
Definition edge_weight (G : Graph) (weight : option string) (u v : node) : Qc :=
  match adj G !! (u, v) with
  | None => 0
  | Some attrs => attr_weight weight attrs
  end.

(** Modelled from the spec: [nx.adjacency_matrix] is not among the
    sources; rows and columns follow the node order, entry [(u, v)] is the
    weight of the edge [u -> v]. *)
Definition adjacency_matrix (G : Graph) (weight : option string) : comp matrix :=
  _ ← emit (EvAdjacencyMatrix (length (nodes G)));
  mret (map (fun u => map (fun v => edge_weight G weight u v) (nodes G))
            (nodes G)).

(** Modelled from the spec: [G.in_degree] pairs each node with the number
    of edges that enter it. *)
Definition in_degree (G : Graph) (v : node) : nat :=
  length (filter (fun u => is_Some (adj G !! (u, v))) (nodes G)).

Definition np_linalg_inv (fl : float_inv) (m : matrix) : comp matrix :=
  _ ← emit (EvLinalgInv (length m));
  match inv_answer fl m with
  | Some ninv => mret ninv
  | None => raise LinAlgError
  end.

(** [for i, node_id in enumerate(ids): levels[node_id] = y[i]] *)
Fixpoint assign_levels (y : vector) (i : nat) (ids : list node)
    (levels : gmap node Qc) : comp (gmap node Qc) :=
  match ids with
  | [] => mret levels
  | node_id :: rest =>
      match y !! i with
      | Some yi => assign_levels y (S i) rest (<[node_id := yi]> levels)
      | None => raise IndexError
      end
  end.

Definition trophic_levels (fl : float_inv) (G : Graph) (weight : option string)
  : comp (gmap node Qc) :=
  not_implemented_for_undirected G (
    (* find adjacency matrix *)
    adjm ← adjacency_matrix G weight;
    let a := transpose (length (nodes G)) adjm in
    (* drop rows/columns where in-degree is zero *)
    let rowsum := sum_axis1 a in
    let mask := map (fun s => bool_decide (s <> 0)) rowsum in
    let p := map (mask_select mask) (mask_select mask a) in
    (* normalise so sum of in-degree weights is 1 along each row *)
    let p := zip_with (fun row d => map (fun x => x / d) row)
               p (mask_select mask rowsum) in
    (* calculate trophic levels *)
    let nn := length p in
    let i := eye nn in
    n ← np_linalg_inv fl (mat_sub i p);
    let y := map (fun s => s + 1) (sum_axis1 n) in
    let levels : gmap node Qc := ∅ in
    (* all nodes with in-degree zero have trophic level == 1 *)
    let zero_node_ids := filter (fun v => in_degree G v = 0%nat) (nodes G) in
    let levels :=
      foldl (fun lv node_id => <[node_id := 1]> lv) levels zero_node_ids in
    (* all other nodes have levels as calculated *)
    let nonzero_node_ids :=
      filter (fun v => in_degree G v <> 0%nat) (nodes G) in
    assign_levels y 0 nonzero_node_ids levels).

(** *** The level system in the words of the specification

    [A[i][j]] is the weight of the edge [j -> i]; [k_in i] sums row [i];
    a node is basal iff [k_in i = 0]; [P] keeps the non-basal rows and
    columns, each row divided by its [k_in]. *)

Definition spec_A (G : Graph) (weight : option string) (i j : node) : Qc :=
  edge_weight G weight j i.

Definition k_in (G : Graph) (weight : option string) (i : node) : Qc :=
  Qcsum (map (fun j => spec_A G weight i j) (nodes G)).

Definition non_basal (G : Graph) (weight : option string) : list node :=
  filter (fun i => k_in G weight i <> 0) (nodes G).

Definition spec_P (G : Graph) (weight : option string) : matrix :=
  map (fun i =>
         map (fun j => spec_A G weight i j / k_in G weight i)
             (non_basal G weight))
      (non_basal G weight).

(** The system [I - P] of the non-basal nodes. *)
Definition level_system (G : Graph) (weight : option string) : matrix :=
  mat_sub (eye (length (non_basal G weight))) (spec_P G weight).

(** Every edge carries a positive weight (the data model of the
    specification). *)
Definition positive_weights (G : Graph) (weight : option string) : Prop :=
  map_Forall (fun _ attrs => 0 < attr_weight weight attrs) (adj G).

(** Both endpoints of every edge are nodes of the graph. *)
Definition edges_closed (G : Graph) : Prop :=
  map_Forall (fun e _ => e.1 ∈ nodes G /\ e.2 ∈ nodes G) (adj G).

Definition no_self_loops (G : Graph) : Prop :=
  map_Forall (fun e _ => e.1 <> e.2) (adj G).

(** No primitive of the given run inverts a matrix. *)
Definition solve_skipped {A} (c : comp A) : Prop :=
  forall n, EvLinalgInv n ∉ trace c.

(** *** Differences and coherence *)

(** Modelled from the spec: [trophic_differences] is not among the
    sources (the module ends with a comment that announces it).  For every
    edge [(j, i)] of the graph, [difference[(j, i)] = levels[i] - levels[j]];
    the levels cover all nodes, a missing one reads as zero. *)
Definition computeDifferences (G : Graph) (levels : gmap node Qc)
  : gmap (node * node) Qc :=
  map_imap (fun e _ =>
              Some (default 0 (levels !! e.2) - default 0 (levels !! e.1)))
           (adj G).

Definition trophic_differences (fl : float_inv) (G : Graph)
    (weight : option string) : comp (gmap (node * node) Qc) :=
  levels ← trophic_levels fl G weight;
  mret (computeDifferences G levels).

Definition Rsum (xs : list R) : R := foldr Rplus 0%R xs.

Definition Rmean (xs : list R) : R := (Rsum xs / INR (length xs))%R.

(** Population standard deviation; undefined on no values. *)
Definition pstdev (xs : list R) : option R :=
  match xs with
  | [] => None
  | _ => Some (sqrt (Rmean (map (fun x => (x - Rmean xs) ^ 2)%R xs)))
  end.

Definition diff_values (d : gmap (node * node) Qc) : list R :=
  map (fun kv => Q2R (this kv.2)) (map_to_list d).

(** Modelled from the spec: [trophic_coherence] is not among the sources.
    Compute the differences, discard the self-loop entries unless
    cannibalism is included, return the population standard deviation of
    what remains.  (The third graph of
    [test_trophic_coherence_no_cannibalism] has self-loops and expects
    them to be left out before the levels are computed; the specification
    filters the differences instead.  Without self-loops the two
    agree.) *)
Definition computeCoherence (G : Graph) (levels : gmap node Qc)
    (includeCannibalism : bool) : option R :=
  let diffs := computeDifferences G levels in
  let kept :=
    if includeCannibalism then diffs
    else filter (fun kv => kv.1.1 <> kv.1.2) diffs in
  pstdev (diff_values kept).

Definition trophic_coherence (fl : float_inv) (G : Graph)
    (weight : option string) (cannibalism : bool) : comp (option R) :=
  levels ← trophic_levels fl G weight;
  mret (computeCoherence G levels cannibalism).

(** *** Reading the result *)

(** [levels[v]], read as zero for a missing key. *)
Definition level_of (levels : gmap node Qc) (v : node) : Qc :=
  default 0 (levels !! v).




End Trophic.

Arguments Graph node {_ _}.

#[global] Instance error_eq_dec : EqDecision error.
Proof. solve_decision. Defined.

#[global] Instance event_eq_dec : EqDecision event.
Proof. solve_decision. Defined.

(** ** Graphs of the test suite *)

Definition unit_weight : gmap string Qc := {["weight" := 1]}.

(** [G.add_edge("a", "b"); G.add_edge("b", "c")] *)
Definition chain_abc : Graph string :=
  {| is_directed := true;
     nodes := ["a"; "b"; "c"];
     adj := list_to_map [(("a", "b"), ∅); (("b", "c"), ∅)] |}.

(** Two nodes and the single edge [0 -> 1] of weight one. *)
Definition edge_0_1 : Graph nat :=
  {| is_directed := true;
     nodes := [0; 1]%nat;
     adj := list_to_map [((0, 1)%nat, unit_weight)] |}.

(** [from_numpy_matrix([[0, 0], [1, 0]])]: the single edge [1 -> 0]. *)
Definition edge_1_0 : Graph nat :=
  {| is_directed := true;
     nodes := [0; 1]%nat;
     adj := list_to_map [((1, 0)%nat, unit_weight)] |}.

(** [from_numpy_matrix([[0,1,1,0],[0,0,1,1],[0,0,0,1],[0,0,0,0]])] *)
Definition dag4 : Graph nat :=
  {| is_directed := true;
     nodes := [0; 1; 2; 3]%nat;
     adj := list_to_map
              [((0, 1)%nat, unit_weight); ((0, 2)%nat, unit_weight);
               ((1, 2)%nat, unit_weight); ((1, 3)%nat, unit_weight);
               ((2, 3)%nat, unit_weight)] |}.

(** [from_numpy_matrix([[0,1,0,0],[0,0,1,0],[0,0,0,1],[0,0,0,0]])] *)
Definition chain4 : Graph nat :=
  {| is_directed := true;
     nodes := [0; 1; 2; 3]%nat;
     adj := list_to_map
              [((0, 1)%nat, unit_weight); ((1, 2)%nat, unit_weight);
               ((2, 3)%nat, unit_weight)] |}.

(** [from_numpy_matrix(np.identity(4))]: four self-loops. *)
Definition self_loops4 : Graph nat :=
  {| is_directed := true;
     nodes := [0; 1; 2; 3]%nat;
     adj := list_to_map
              [((0, 0)%nat, unit_weight); ((1, 1)%nat, unit_weight);
               ((2, 2)%nat, unit_weight); ((3, 3)%nat, unit_weight)] |}.

(** [nx.DiGraph()] with nothing added. *)
Definition null_digraph : Graph nat :=
  {| is_directed := true; nodes := []; adj := ∅ |}.

(** One node and no edge. *)
Definition isolated_node : Graph nat :=
  {| is_directed := true; nodes := [0%nat]; adj := ∅ |}.

(** [nx.Graph()] with the edge [a - b], stored in both directions. *)
Definition undirected_ab : Graph string :=
  {| is_directed := false;
     nodes := ["a"; "b"];
     adj := list_to_map [(("a", "b"), ∅); (("b", "a"), ∅)] |}.

(** The second graph of [test_trophic_coherence_cannibalism], with the
    self-loop [1 -> 1]. *)
Definition web5 : Graph nat :=
  {| is_directed := true;
     nodes := [0; 1; 2; 3; 4]%nat;
     adj := list_to_map
              [((1, 1)%nat, unit_weight); ((1, 3)%nat, unit_weight);
               ((2, 0)%nat, unit_weight); ((3, 1)%nat, unit_weight);
               ((4, 3)%nat, unit_weight)] |}.

(** The food web of [test_trophic_levels_levine], weights in fifths and
    tenths. *)
Definition levine : Graph nat :=
  {| is_directed := true;
     nodes := [1; 2; 3; 4; 5]%nat;
     adj := list_to_map
              [((1, 2)%nat, {["weight" := 1]});
               ((1, 3)%nat, {["weight" := Q2Qc (2 # 10)]});
               ((1, 4)%nat, {["weight" := Q2Qc (8 # 10)]});
               ((2, 3)%nat, {["weight" := Q2Qc (2 # 10)]});
               ((2, 5)%nat, {["weight" := Q2Qc (3 # 10)]});
               ((4, 3)%nat, {["weight" := Q2Qc (6 # 10)]});
               ((4, 5)%nat, {["weight" := Q2Qc (7 # 10)]});
               ((5, 4)%nat, {["weight" := Q2Qc (2 # 10)]})] |}.

Definition levine_levels : gmap nat Qc :=
  {[1%nat := 1; 2%nat := Q2Qc 2; 3%nat := Q2Qc (662 # 215);
    4%nat := Q2Qc (106 # 43); 5%nat := Q2Qc (143 # 43)]}.

(** A self-loop of weight zero: an edge enters the node, yet its
    in-degree weights sum to zero. *)
Definition zero_weight_loop : Graph nat :=
  {| is_directed := true;
     nodes := [0%nat];
     adj := list_to_map [((0, 0)%nat, {["weight" := 0]})] |}.

(** Two nodes that feed each other, node 0 also itself:
    [add_weighted_edges_from([(0, 0, 1), (1, 0, 2), (0, 1, 1)])].  Every
    node is entered by an edge. *)
Definition loop_pair : Graph nat :=
  {| is_directed := true;
     nodes := [0; 1]%nat;
     adj := list_to_map
              [((0, 0)%nat, {["weight" := 1]});
               ((1, 0)%nat, {["weight" := Q2Qc 2]});
               ((0, 1)%nat, {["weight" := 1]})] |}.

(** Two nodes that feed each other, node 1 also itself, with weight 4:
    [add_weighted_edges_from([(0, 1, 1), (1, 0, 1), (1, 1, 4)])]. *)
Definition heavy_loop : Graph nat :=
  {| is_directed := true;
     nodes := [0; 1]%nat;
     adj := list_to_map
              [((0, 1)%nat, {["weight" := 1]});
               ((1, 0)%nat, {["weight" := 1]});
               ((1, 1)%nat, {["weight" := Q2Qc 4]})] |}.

(** What float64 makes of the system of [loop_pair], whose exact rows are
    [2/3, -2/3] and [-1, 1].  [1 - 1/3] is rounded up to
    [a = 6004799503160662 / 2^53] and [2/3] down to
    [b = 6004799503160661 / 2^53]: the elimination pivots on [-1], the
    second pivot is [a - b = 2^-53], not zero, and the routine answers
    [2^53 * [[1, b], [1, a]]].  Its rows summed, plus one, are the levels
    below; summed in float64 they are [1.5011998757901652e16] and
    [1.5011998757901656e16].  Likewise on the system of [heavy_loop], of
    exact rows [1, -1] and [-1/5, 1/5]: [1 - 4/5] is rounded to
    [0.19999999999999996], the second pivot is [-2^-54], and both levels
    come out near [-2.16e16]. *)
Definition missed_pivot : float_inv := fun m =>
  if decide (m = [[Q2Qc (2 # 3); Q2Qc (-2 # 3)]; [Q2Qc (-1); 1]]) then
    Some (fun i j =>
            nth j (nth i [[Q2Qc 9007199254740992; Q2Qc 6004799503160661];
                          [Q2Qc 9007199254740992; Q2Qc 6004799503160662]]
                     []) 0)
  else if decide (m = [[1; Q2Qc (-1)]; [Q2Qc (-1 # 5); Q2Qc (1 # 5)]]) then
    Some (fun i j =>
            nth j (nth i [[Q2Qc (-3602879701896396);
                           Q2Qc (-18014398509481984)];
                          [Q2Qc (-3602879701896397);
                           Q2Qc (-18014398509481984)]]
                     []) 0)
  else None.

Definition loop_pair_levels : gmap nat Qc :=
  {[0%nat := Q2Qc 15011998757901654; 1%nat := Q2Qc 15011998757901655]}.

(** The dictionaries that the tests expect. *)
Definition chain_levels : gmap string Qc :=
  {["a" := 1; "b" := Q2Qc 2; "c" := Q2Qc 3]}.

Definition dag4_levels : gmap nat Qc :=
  {[0%nat := 1; 1%nat := Q2Qc 2; 2%nat := Q2Qc (5 # 2);
    3%nat := Q2Qc (13 # 4)]}.

Definition web5_levels : gmap nat Qc :=
  {[0%nat := Q2Qc 2; 1%nat := Q2Qc 7; 2%nat := 1; 3%nat := Q2Qc 5;
    4%nat := 1]}.

(** The tolerance of the numerical scenarios. *)
Definition within_tolerance (x y : Qc) : Prop :=
  - Q2Qc (1 # 10000000) <= x - y /\ x - y <= Q2Qc (1 # 10000000).

(** ** Elementary facts on vectors *)

Section VectorFacts.

Implicit Types (u v w x p : vector) (c : Qc).

Lemma length_vscale c v : length (vscale c v) = length v.
Proof. unfold vscale. apply length_map. Qed.

Lemma length_vaxpy c x p :
  length x = length p -> length (vaxpy c x p) = length x.
Proof.
  unfold vaxpy. revert p.
  induction x as [|a x IH]; intros [|b p]; simpl; try discriminate; auto.
Qed.

Lemma nth_vscale c v i : nth i (vscale c v) 0 = c * nth i v 0.
Proof.
  unfold vscale. revert i.
  induction v as [|a v IH]; intros [|i]; simpl; auto; ring.
Qed.

Lemma nth_vaxpy c x p i :
  length x = length p ->
  nth i (vaxpy c x p) 0 = nth i x 0 - c * nth i p 0.
Proof.
  unfold vaxpy. revert p i.
  induction x as [|a x IH]; intros [|b p] [|i]; simpl;
    try discriminate; intros Hlen; try ring.
  apply IH. congruence.
Qed.

Lemma dot_nil_r u : dot u [] = 0.
Proof. unfold dot. destruct u; reflexivity. Qed.

Lemma dot_cons a u b v : dot (a :: u) (b :: v) = a * b + dot u v.
Proof. reflexivity. Qed.

Lemma dot_vscale_l c u v : dot (vscale c u) v = c * dot u v.
Proof.
  revert v. induction u as [|a u IH]; intros [|b v]; simpl.
  - unfold dot; simpl; ring.
  - unfold dot; simpl; ring.
  - rewrite !dot_nil_r; ring.
  - unfold vscale in *. simpl. rewrite !dot_cons, IH. ring.
Qed.

Lemma dot_vaxpy_l c x p v :
  length x = length p ->
  dot (vaxpy c x p) v = dot x v - c * dot p v.
Proof.
  revert p v.
  induction x as [|a x IH]; intros [|b p] v Hlen; simpl in *;
    try discriminate.
  - unfold dot; simpl; ring.
  - destruct v as [|e v].
    + rewrite !dot_nil_r; ring.
    + unfold vaxpy in *. simpl. rewrite !dot_cons, IH by congruence. ring.
Qed.

Lemma dot_zeros_l n v : dot (repeat 0 n) v = 0.
Proof.
  revert v. induction n as [|n IH]; intros [|b v]; simpl;
    try reflexivity.
  rewrite dot_cons, IH. ring.
Qed.


Lemma dot_ones_r u n : length u = n -> dot u (repeat 1 n) = Qcsum u.
Proof.
  revert n. induction u as [|a u IH]; intros [|n] Hlen; simpl in *;
    try discriminate; try reflexivity.
  rewrite dot_cons, IH by congruence. ring.
Qed.

Lemma length_unit_vec n i : length (unit_vec n i) = n.
Proof.
  revert i. induction n as [|n IH]; intros [|i]; simpl; auto.
  now rewrite repeat_length.
Qed.

Lemma dot_unit_vec_l n i v : (i < n)%nat -> dot (unit_vec n i) v = nth i v 0.
Proof.
  revert i v. induction n as [|n IH]; intros i v Hi; [lia|].
  destruct i as [|i], v as [|b v]; simpl; rewrite ?dot_nil_r; auto.
  - rewrite dot_cons, dot_zeros_l. ring.
  - rewrite dot_cons, IH by lia. ring.
Qed.

Lemma nth_unit_vec n i j :
  (j < n)%nat ->
  nth j (unit_vec n i) 0 = if decide (i = j) then 1 else 0.
Proof.
  revert i j. induction n as [|n IH]; intros i j Hj; [lia|].
  destruct i as [|i], j as [|j]; simpl; auto.
  - destruct (decide (0%nat = S j)); [discriminate|].
    apply nth_repeat.
  - rewrite IH by lia.
    destruct (decide (i = j)), (decide (S i = S j)); auto; lia.
Qed.

Lemma unit_vec_ext n (r : vector) j :
  length r = n ->
  (forall i, (i < n)%nat -> nth i r 0 = delta j i) ->
  r = unit_vec n j.
Proof.
  intros Hl Hr. apply (nth_ext _ _ 0 0).
  - now rewrite length_unit_vec.
  - intros i Hlt. rewrite Hl in Hlt. rewrite Hr, nth_unit_vec by assumption.
    reflexivity.
Qed.




Lemma lookup_map {A B} (f : A -> B) (l : list A) i :
  map f l !! i = f <$> l !! i.
Proof. exact (list_lookup_fmap f l i). Qed.

End VectorFacts.

(** ** Correctness of the elimination *)

Section GaussJordan.

Variable n : nat.

Lemma wf_row_scale c r : wf_row n r -> wf_row n (row_scale c r).
Proof.
  intros [H1 H2]. split; simpl; now rewrite length_vscale.
Qed.

Lemma wf_row_elim k p x :
  wf_row n p -> wf_row n x -> wf_row n (row_elim k p x).
Proof.
  intros [P1 P2] [X1 X2]. split; simpl; rewrite length_vaxpy; congruence.
Qed.

Lemma agrees_scale v w c r :
  c <> 0 -> agrees v w (row_scale c r) <-> agrees v w r.
Proof.
  intros Hc. unfold agrees. simpl. rewrite !dot_vscale_l. split.
  - intros H.
    replace (dot r.1 v) with (/ c * (c * dot r.1 v)) by (field; assumption).
    rewrite H. field; assumption.
  - intros ->. reflexivity.
Qed.

Lemma agrees_elim v w k p x :
  wf_row n p -> wf_row n x -> agrees v w p ->
  agrees v w (row_elim k p x) <-> agrees v w x.
Proof.
  intros [P1 P2] [X1 X2] Hp. unfold agrees in *. simpl.
  rewrite !dot_vaxpy_l by congruence. rewrite Hp. split.
  - intros H.
    replace (dot x.1 v)
      with (dot x.1 v - nth k x.1 0 * dot p.2 w + nth k x.1 0 * dot p.2 w)
      by ring.
    rewrite H. ring.
  - intros ->. reflexivity.
Qed.

Lemma Forall_agrees_elim v w k p l :
  wf_row n p -> Forall (wf_row n) l -> agrees v w p ->
  Forall (agrees v w) (map (row_elim k p) l) <-> Forall (agrees v w) l.
Proof.
  intros Hp Hl Hap. induction l as [|x l IH]; simpl.
  - split; constructor.
  - inversion Hl; subst. rewrite !Forall_cons, IH by assumption.
    rewrite agrees_elim by assumption. reflexivity.
Qed.

Lemma Forall_wf_elim k p l :
  wf_row n p -> Forall (wf_row n) l ->
  Forall (wf_row n) (map (row_elim k p) l).
Proof.
  intros Hp Hl. induction Hl; simpl; constructor; auto using wf_row_elim.
Qed.

Lemma find_pivot_Some k todo p others :
  find_pivot k todo = Some (p, others) ->
  nth k p.1 0 <> 0 /\ Permutation todo (p :: others).
Proof.
  revert p others. induction todo as [|r rest IH]; intros p others; simpl.
  - discriminate.
  - destruct (decide (nth k r.1 0 = 0)) as [Hz|Hnz].
    + destruct (find_pivot k rest) as [[p0 o0]|] eqn:E; [|discriminate].
      intros [= <- <-]. destruct (IH _ _ eq_refl) as [Hp Hperm].
      split; [assumption|].
      rewrite Hperm. apply perm_swap.
    + intros [= <- <-]. split; [assumption | reflexivity].
Qed.


Lemma Qcinv_nonzero (c : Qc) : c <> 0 -> / c <> 0.
Proof.
  intros Hc H0. apply Hc.
  rewrite <- (Qcmult_1_l c), <- (Qcmult_inv_r c) by assumption.
  rewrite H0. ring.
Qed.

(** *** One step

    [done] and [todo] before a step, the pivot [p] found in [todo], and
    the rows after it. *)

Lemma step_length k todo p others :
  find_pivot k todo = Some (p, others) -> length todo = S (length others).
Proof.
  intros Epiv. apply find_pivot_Some in Epiv as [_ Hperm].
  apply Permutation_length in Hperm. exact Hperm.
Qed.

Lemma step_parts k done todo p others :
  Forall (wf_row n) (done ++ todo) ->
  find_pivot k todo = Some (p, others) ->
  Forall (wf_row n) done /\ wf_row n p /\ Forall (wf_row n) others /\
  wf_row n (row_scale (/ nth k p.1 0) p).
Proof.
  intros Hwf Epiv. apply find_pivot_Some in Epiv as [_ Hperm].
  rewrite Hperm in Hwf. apply Forall_app in Hwf as [Hwd Hwt].
  inversion Hwt as [|? ? Hwp Hwo]; subst.
  split; [assumption|]. split; [assumption|]. split; [assumption|].
  now apply wf_row_scale.
Qed.

Lemma step_wf k done todo p others :
  Forall (wf_row n) (done ++ todo) ->
  find_pivot k todo = Some (p, others) ->
  Forall (wf_row n)
    ((map (row_elim k (row_scale (/ nth k p.1 0) p)) done
      ++ [row_scale (/ nth k p.1 0) p])
     ++ map (row_elim k (row_scale (/ nth k p.1 0) p)) others).
Proof.
  intros Hwf Epiv.
  destruct (step_parts _ _ _ _ _ Hwf Epiv) as (Hwd & Hwp & Hwo & Hwp').
  rewrite !Forall_app. repeat split.
  - apply Forall_wf_elim; assumption.
  - constructor; [assumption | constructor].
  - apply Forall_wf_elim; assumption.
Qed.

Lemma step_agrees v w k done todo p others :
  Forall (wf_row n) (done ++ todo) ->
  find_pivot k todo = Some (p, others) ->
  Forall (agrees v w) (done ++ todo) <->
  Forall (agrees v w)
    ((map (row_elim k (row_scale (/ nth k p.1 0) p)) done
      ++ [row_scale (/ nth k p.1 0) p])
     ++ map (row_elim k (row_scale (/ nth k p.1 0) p)) others).
Proof.
  intros Hwf Epiv.
  destruct (step_parts _ _ _ _ _ Hwf Epiv) as (Hwd & Hwp & Hwo & Hwp').
  apply find_pivot_Some in Epiv as [Hpk Hperm].
  pose proof (Qcinv_nonzero _ Hpk) as Hinv.
  rewrite Hperm.
  rewrite !Forall_app, !Forall_cons, Forall_nil.
  split.
  - intros (Hd & Hp & Ho).
    assert (Hp' : agrees v w (row_scale (/ nth k p.1 0) p))
      by (apply agrees_scale; assumption).
    rewrite !Forall_agrees_elim by assumption. tauto.
  - intros ((Hd & Hp' & _) & Ho).
    rewrite !Forall_agrees_elim in Hd, Ho by assumption.
    apply agrees_scale in Hp'; tauto.
Qed.

Lemma row_elim_cleared k p x :
  wf_row n p -> wf_row n x ->
  (forall c, (c < k)%nat -> nth c p.1 0 = 0) -> nth k p.1 0 = 1 ->
  (forall c, (c < k)%nat -> nth c (row_elim k p x).1 0 = nth c x.1 0) /\
  nth k (row_elim k p x).1 0 = 0.
Proof.
  intros [P1 _] [X1 _] Hlow Hone. simpl. split.
  - intros c Hc. rewrite nth_vaxpy, Hlow by congruence. ring.
  - rewrite nth_vaxpy, Hone by congruence. ring.
Qed.

Lemma step_reduced k done todo p others :
  Forall (wf_row n) (done ++ todo) ->
  reduced k done todo ->
  find_pivot k todo = Some (p, others) ->
  reduced (S k)
    (map (row_elim k (row_scale (/ nth k p.1 0) p)) done
     ++ [row_scale (/ nth k p.1 0) p])
    (map (row_elim k (row_scale (/ nth k p.1 0) p)) others).
Proof.
  intros Hwf (Hld & Hdone & Htodo) Epiv. subst k.
  destruct (step_parts _ _ _ _ _ Hwf Epiv) as (Hwd & Hwp & Hwo & Hwp').
  apply find_pivot_Some in Epiv as [Hpk Hperm].
  set (p' := row_scale (/ nth (length done) p.1 0) p) in *.
  assert (Hlow : forall c, (c < length done)%nat -> nth c p'.1 0 = 0).
  { intros c Hc. simpl. rewrite nth_vscale.
    rewrite (Htodo p c); [ring | | assumption].
    rewrite Hperm. apply list_elem_of_here. }
  assert (Hone : nth (length done) p'.1 0 = 1).
  { simpl. rewrite nth_vscale. field. assumption. }
  split; [|split].
  - rewrite length_app, length_map. simpl. lia.
  - intros j r c Hj Hc.
    apply lookup_app_Some in Hj as [Hj|[Hge Hj]].
    + rewrite lookup_map in Hj.
      destruct (done !! j) as [r0|] eqn:Er0; [|discriminate].
      injection Hj as <-.
      assert (Hjlt : (j < length done)%nat)
        by (eapply lookup_lt_Some; eassumption).
      assert (Hw0 : wf_row n r0).
      { rewrite Forall_forall in Hwd. apply Hwd.
        eapply list_elem_of_lookup_2; eassumption. }
      destruct (row_elim_cleared (length done) p' r0) as [Hc1 Hc2];
        try assumption.
      destruct (decide (c = length done)) as [->|Hne].
      * rewrite Hc2. unfold delta.
        destruct (decide (j = length done)); [lia | reflexivity].
      * rewrite Hc1 by lia. apply Hdone; [assumption | lia].
    + rewrite length_map in Hge, Hj.
      destruct (j - length done)%nat as [|m] eqn:Em; [|discriminate].
      injection Hj as <-.
      assert (j = length done) as -> by lia.
      destruct (decide (c = length done)) as [->|Hne].
      * rewrite Hone. unfold delta.
        destruct (decide (length done = length done)); congruence.
      * rewrite Hlow by lia. unfold delta.
        destruct (decide (length done = c)); [lia | reflexivity].
  - intros r c Hr Hc.
    apply list_elem_of_In, in_map_iff in Hr as (x & <- & Hx).
    apply list_elem_of_In in Hx.
    assert (Hwx : wf_row n x).
    { rewrite Forall_forall in Hwo. apply Hwo. assumption. }
    destruct (row_elim_cleared (length done) p' x) as [Hc1 Hc2];
      try assumption.
    destruct (decide (c = length done)) as [->|Hne]; [assumption|].
    rewrite Hc1 by lia. apply Htodo; [|lia].
    rewrite Hperm. apply list_elem_of_further. assumption.
Qed.

(** *** A run that succeeds *)

Lemma gauss_jordan_transfer v w steps :
  forall k done todo final,
    length todo = steps ->
    Forall (wf_row n) (done ++ todo) ->
    gauss_jordan steps k done todo = Some final ->
    Forall (wf_row n) final /\
    (Forall (agrees v w) (done ++ todo) <-> Forall (agrees v w) final).
Proof.
  induction steps as [|steps IH]; intros k done todo final Hlen Hwf; simpl.
  - destruct todo; [|discriminate]. rewrite app_nil_r in *.
    intros [= <-]. split; [assumption | reflexivity].
  - destruct (find_pivot k todo) as [[p others]|] eqn:Epiv; [|discriminate].
    intros Hrun. apply IH in Hrun as [Hwfin Hiff].
    + split; [assumption|]. rewrite <- Hiff.
      exact (step_agrees v w k done todo p others Hwf Epiv).
    + rewrite length_map. apply step_length in Epiv. lia.
    + exact (step_wf k done todo p others Hwf Epiv).
Qed.

Lemma reduced_final done :
  Forall (wf_row n) done -> reduced n done [] -> map fst done = eye n.
Proof.
  intros Hwf (Hlen & Hdone & _). apply list_eq. intros i.
  unfold eye. rewrite !lookup_map.
  destruct (decide (i < n)%nat) as [Hi|Hi].
  - rewrite lookup_seq_lt by assumption.
    destruct (lookup_lt_is_Some_2 done i) as [r Hr]; [lia|].
    rewrite Hr. simpl. f_equal. apply unit_vec_ext.
    + rewrite Forall_forall in Hwf. apply Hwf.
      eapply list_elem_of_lookup_2; eassumption.
    + intros c Hc. eapply Hdone; eassumption.
  - rewrite lookup_seq_ge by lia.
    rewrite lookup_ge_None_2 by lia. reflexivity.
Qed.

Lemma gauss_jordan_shape steps :
  forall k done todo final,
    length todo = steps -> (k + steps = n)%nat ->
    Forall (wf_row n) (done ++ todo) ->
    reduced k done todo ->
    gauss_jordan steps k done todo = Some final ->
    map fst final = eye n.
Proof.
  induction steps as [|steps IH];
    intros k done todo final Hlen Hk Hwf Hred; simpl.
  - destruct todo; [|discriminate]. rewrite app_nil_r in Hwf.
    intros [= <-]. apply reduced_final; [assumption|].
    replace n with k by lia. assumption.
  - destruct (find_pivot k todo) as [[p others]|] eqn:Epiv; [|discriminate].
    apply IH.
    + rewrite length_map. apply step_length in Epiv. lia.
    + lia.
    + exact (step_wf k done todo p others Hwf Epiv).
    + exact (step_reduced k done todo p others Hwf Hred Epiv).
Qed.

(** *** A run that fails *)




End GaussJordan.

(** ** Specification of the inverse *)

Lemma Forall_agrees_mat_vec (rows : list arow) v w :
  Forall (agrees v w) rows <->
  mat_vec (map fst rows) v = mat_vec (map snd rows) w.
Proof.
  induction rows as [|r rows IH]; simpl.
  - split; [reflexivity | constructor].
  - rewrite Forall_cons, IH. unfold agrees. split.
    + intros [-> ->]. reflexivity.
    + intros [= H1 H2]. split; assumption.
Qed.

Lemma length_eye n : length (eye n) = n.
Proof. unfold eye. now rewrite length_map, length_seq. Qed.

Lemma mat_vec_eye n v : length v = n -> mat_vec (eye n) v = v.
Proof.
  intros Hlen. apply list_eq. intros i. unfold mat_vec, eye.
  rewrite map_map.
  change (map (fun x => dot (unit_vec n x) v) (seq 0 n))
    with ((fun x => dot (unit_vec n x) v) <$> seq 0 n).
  rewrite list_lookup_fmap.
  destruct (decide (i < n)%nat) as [Hi|Hi].
  - rewrite lookup_seq_lt by assumption. simpl.
    rewrite dot_unit_vec_l by assumption.
    destruct (lookup_lt_is_Some_2 v i) as [x Hx]; [lia|].
    rewrite Hx. f_equal. now apply nth_lookup_Some.
  - rewrite lookup_seq_ge by lia. rewrite lookup_ge_None_2 by lia.
    reflexivity.
Qed.

Lemma is_square_spec m :
  is_square m = true <-> Forall (fun r => length r = length m) m.
Proof.
  unfold is_square. rewrite forallb_forall, Forall_forall.
  split; intros H r Hr.
  - apply Nat.eqb_eq, H. now apply list_elem_of_In.
  - apply Nat.eqb_eq, H. now apply list_elem_of_In.
Qed.

Lemma Forall_wf_row_init m :
  Forall (fun r => length r = length m) m ->
  Forall (wf_row (length m)) (zip m (eye (length m))).
Proof.
  intros Hsq. apply Forall_forall. intros [a b] Hab.
  apply list_elem_of_lookup in Hab as [i Hi].
  apply lookup_zip_with_Some in Hi as (a' & b' & [= <- <-] & Ha & Hb).
  split; simpl.
  - rewrite Forall_forall in Hsq. apply Hsq.
    eapply list_elem_of_lookup_2; eassumption.
  - unfold eye in Hb.
    change (map (unit_vec (length m)) (seq 0 (length m)))
      with (unit_vec (length m) <$> seq 0 (length m)) in Hb.
    rewrite list_lookup_fmap in Hb.
    destruct (seq 0 (length m) !! i); [|discriminate].
    injection Hb as <-. apply length_unit_vec.
Qed.

(** [linalg_inv] answers a two-sided inverse: on vectors of the right
    length, [m v = w] exactly when [v = ninv w]. *)
Theorem linalg_inv_spec m ninv :
  linalg_inv m = Some ninv ->
  length ninv = length m /\
  Forall (fun r => length r = length m) m /\
  Forall (fun r => length r = length m) ninv /\
  forall v w, length v = length m -> length w = length m ->
    (mat_vec m v = w <-> v = mat_vec ninv w).
Proof.
  unfold linalg_inv.
  destruct (is_square m) eqn:Esq; [|discriminate].
  apply is_square_spec in Esq.
  destruct (gauss_jordan (length m) 0 [] (zip m (eye (length m))))
    as [final|] eqn:Erun; [|discriminate].
  simpl. intros [= <-].
  pose proof (Forall_wf_row_init m Esq) as Hwf.
  assert (Hlz : length (zip m (eye (length m))) = length m).
  { rewrite length_zip_with, length_eye. lia. }
  assert (Hfst : map fst final = eye (length m)).
  { eapply (gauss_jordan_shape (length m) (length m) 0 []);
      [exact Hlz | lia | exact Hwf | | exact Erun].
    split; [reflexivity|]. split.
    - intros j r c Hj. rewrite lookup_nil in Hj. discriminate.
    - intros r c _ Hc. lia. }
  assert (Hlen : length final = length m).
  { rewrite <- (length_map fst final), Hfst. apply length_eye. }
  split; [now rewrite length_map|]. split; [assumption|]. split.
  - destruct (gauss_jordan_transfer (length m) [] [] (length m) 0 []
                (zip m (eye (length m))) final Hlz Hwf Erun) as [Hwfin _].
    clear -Hwfin. induction Hwfin as [|r l [_ H2] _ IH]; simpl;
      constructor; assumption.
  - intros v w Hv Hw.
    destruct (gauss_jordan_transfer (length m) v w (length m) 0 []
                (zip m (eye (length m))) final Hlz Hwf Erun) as [_ Hiff].
    simpl in Hiff. rewrite !Forall_agrees_mat_vec in Hiff.
    rewrite Hfst in Hiff.
    change (map fst (zip m (eye (length m))))
      with ((zip m (eye (length m))).*1) in Hiff.
    change (map snd (zip m (eye (length m))))
      with ((zip m (eye (length m))).*2) in Hiff.
    rewrite fst_zip, snd_zip in Hiff by (rewrite length_eye; lia).
    rewrite !mat_vec_eye in Hiff by assumption.
    exact Hiff.
Qed.





(** ** What [np.linalg.inv] answers *)

Lemma tabulate_shape n g :
  length (tabulate n g) = n /\ Forall (fun r => length r = n) (tabulate n g).
Proof.
  unfold tabulate. split.
  - now rewrite length_map, length_seq.
  - apply Forall_forall. intros r Hr.
    apply list_elem_of_In, in_map_iff in Hr as (i & <- & _).
    now rewrite length_map, length_seq.
Qed.

(** Whatever rounding does, the answer has the shape of the matrix. *)
Lemma inv_answer_shape fl m ninv :
  inv_answer fl m = Some ninv ->
  length ninv = length m /\ Forall (fun r => length r = length m) ninv.
Proof.
  unfold inv_answer.
  destruct (linalg_inv m) as [x|] eqn:Einv.
  - intros [= <-]. apply linalg_inv_spec in Einv as (Hl & _ & Hrows & _).
    split; assumption.
  - destruct (is_square m); [|discriminate].
    destruct (fl m) as [g|]; [|discriminate].
    intros [= <-]. apply tabulate_shape.
Qed.




(** ** Reading the arrays of [trophic_levels] *)

Lemma Qcsum_vscale c v : Qcsum (vscale c v) = c * Qcsum v.
Proof.
  unfold vscale. induction v as [|a v IH]; simpl; [ring|].
  rewrite IH. ring.
Qed.

Lemma mask_select_map {A B} (P : A -> Prop) `{!forall x, Decision (P x)}
    (g : A -> B) (l : list A) :
  mask_select (map (fun x => bool_decide (P x)) l) (map g l)
  = map g (filter P l).
Proof.
  induction l as [|x l IH]; simpl; [reflexivity|].
  rewrite filter_cons. destruct (decide (P x)) as [Hx|Hx].
  - rewrite bool_decide_eq_true_2 by assumption. simpl. now rewrite IH.
  - rewrite bool_decide_eq_false_2 by assumption. assumption.
Qed.

Lemma transpose_map {A} (f : A -> A -> Qc) (l1 l2 : list A) :
  transpose (length l2) (map (fun u => map (fun v => f u v) l2) l1)
  = map (fun v => map (fun u => f u v) l1) l2.
Proof.
  unfold transpose. apply list_eq. intros j.
  change (map ?g (seq 0 (length l2))) with (g <$> seq 0 (length l2)).
  change (map ?g l2) with (g <$> l2) at 2.
  rewrite !list_lookup_fmap.
  destruct (l2 !! j) as [v|] eqn:Ev.
  - rewrite lookup_seq_lt by (eapply lookup_lt_Some; eassumption).
    simpl. f_equal. rewrite map_map. apply map_ext. intros u.
    apply nth_lookup_Some.
    change (map ?g l2) with (g <$> l2). now rewrite list_lookup_fmap, Ev.
  - rewrite lookup_seq_ge; [reflexivity|].
    now apply lookup_ge_None_1.
Qed.

Lemma zip_with_map_map {A B C D} (h : B -> C -> D) (f : A -> B) (g : A -> C)
    (l : list A) :
  zip_with h (map f l) (map g l) = map (fun x => h (f x) (g x)) l.
Proof. induction l as [|x l IH]; simpl; [reflexivity | now rewrite IH]. Qed.

Lemma filter_all {A} (P : A -> Prop) `{!forall x, Decision (P x)} (l : list A) :
  (forall x, x ∈ l -> P x) -> filter P l = l.
Proof.
  induction l as [|x l IH]; intros Hl; [reflexivity|].
  rewrite filter_cons. destruct (decide (P x)) as [Hx|Hx].
  - f_equal. apply IH. intros y Hy. apply Hl. now right.
  - exfalso. apply Hx, Hl. now left.
Qed.

Lemma filter_none {A} (P : A -> Prop) `{!forall x, Decision (P x)} (l : list A) :
  (forall x, x ∈ l -> ~ P x) -> filter P l = [].
Proof.
  induction l as [|x l IH]; intros Hl; [reflexivity|].
  rewrite filter_cons. destruct (decide (P x)) as [Hx|Hx].
  - exfalso. apply (Hl x); [now left | assumption].
  - apply IH. intros y Hy. apply Hl. now right.
Qed.

Lemma map_const_repeat {A} (f : A -> Qc) c (l : list A) :
  (forall x, x ∈ l -> f x = c) -> map f l = repeat c (length l).
Proof.
  induction l as [|x l IH]; intros Hl; simpl; [reflexivity|].
  rewrite Hl by (now left). f_equal. apply IH. intros y Hy. apply Hl.
  now right.
Qed.

Lemma Qcsum_zeros n : Qcsum (repeat 0 n) = 0.
Proof. induction n as [|n IH]; simpl; [reflexivity|]. rewrite IH. ring. Qed.

Lemma Qcsum_unit_vec n i : (i < n)%nat -> Qcsum (unit_vec n i) = 1.
Proof.
  revert i. induction n as [|n IH]; intros i Hi; [lia|].
  destruct i as [|i]; simpl.
  - rewrite Qcsum_zeros. ring.
  - rewrite IH by lia. ring.
Qed.

Lemma Qcsum_zip_minus (u v : vector) :
  length u = length v ->
  Qcsum (zip_with Qcminus u v) = Qcsum u - Qcsum v.
Proof.
  revert v. induction u as [|a u IH]; intros [|b v] Hlen; simpl in *;
    try discriminate; [ring|].
  rewrite IH by congruence. ring.
Qed.

Lemma Qcsum_map_div {A} (f : A -> Qc) k (l : list A) :
  Qcsum (map (fun x => f x / k) l) = Qcsum (map f l) / k.
Proof.
  induction l as [|x l IH]; simpl.
  - unfold Qcdiv. ring.
  - rewrite IH. unfold Qcdiv. ring.
Qed.

Lemma Qcsum_map_pos {A} (f : A -> Qc) (l : list A) x0 :
  (forall x, x ∈ l -> 0 <= f x) -> x0 ∈ l -> 0 < f x0 ->
  0 < Qcsum (map f l).
Proof.
  induction l as [|x l IH]; intros Hnn Hin Hpos.
  - now apply not_elem_of_nil in Hin.
  - simpl. assert (Hrest : 0 <= Qcsum (map f l)).
    { clear -Hnn. induction l as [|y l IHl]; simpl.
      - apply Qcle_refl.
      - apply Qcplus_nonneg_nonneg.
        + apply Hnn. right. now left.
        + apply IHl. intros z Hz. apply Hnn.
          apply elem_of_cons in Hz as [->|Hz]; [now left|].
          right. now right. }
    apply elem_of_cons in Hin as [<-|Hin].
    + now apply Qcplus_pos_nonneg.
    + apply Qcplus_nonneg_pos.
      * apply Hnn. now left.
      * apply IH; try assumption. intros z Hz. apply Hnn. now right.
Qed.

Section TrophicFacts.

Context {node : Type} `{Countable node}.
Implicit Types (G : Graph node) (weight : option string) (fl : float_inv).

Lemma normalised_submatrix_eq G weight :
  let a := transpose (length (nodes G))
             (map (fun u => map (fun v => edge_weight G weight u v) (nodes G))
                  (nodes G)) in
  let rowsum := sum_axis1 a in
  let mask := map (fun s => bool_decide (s <> 0)) rowsum in
  let p := map (mask_select mask) (mask_select mask a) in
  zip_with (fun row d => map (fun x => x / d) row)
    p (mask_select mask rowsum) = spec_P G weight.
Proof.
  intros a rowsum mask p.
  assert (Ha : a = map (fun i => map (fun j => spec_A G weight i j) (nodes G))
                       (nodes G)).
  { unfold a. apply transpose_map. }
  assert (Hr : rowsum = map (k_in G weight) (nodes G)).
  { unfold rowsum, sum_axis1. rewrite Ha, map_map. reflexivity. }
  assert (Hm : mask = map (fun i => bool_decide (k_in G weight i <> 0))
                          (nodes G)).
  { unfold mask. rewrite Hr, map_map. reflexivity. }
  unfold p. rewrite Hr, Hm, Ha.
  rewrite !(mask_select_map (fun i => k_in G weight i <> 0)).
  fold (non_basal G weight). rewrite map_map.
  rewrite zip_with_map_map. unfold spec_P.
  apply map_ext. intros i.
  rewrite (mask_select_map (fun i => k_in G weight i <> 0)).
  rewrite map_map. reflexivity.
Qed.

(** The matrix that the code inverts is the [I - P] of the
    specification, on the non-basal nodes in node order. *)
Lemma trophic_levels_unfold fl G weight :
  is_directed G = true ->
  trophic_levels fl G weight =
    (_ ← emit (EvAdjacencyMatrix (length (nodes G)));
     n ← np_linalg_inv fl (level_system G weight);
     assign_levels (map (fun s => s + 1) (sum_axis1 n)) 0
       (filter (fun v => in_degree G v <> 0%nat) (nodes G))
       (foldl (fun lv node_id => <[node_id := 1]> lv) ∅
          (filter (fun v => in_degree G v = 0%nat) (nodes G)))).
Proof.
  intros Hdir. unfold trophic_levels, not_implemented_for_undirected.
  rewrite Hdir. unfold adjacency_matrix.
  pose proof (normalised_submatrix_eq G weight) as Hp. cbv zeta in Hp.
  unfold mbind, comp_bind, mret, comp_ret, emit. cbv beta iota zeta.
  rewrite Hp. unfold level_system, spec_P. rewrite !length_map.
  reflexivity.
Qed.

Lemma assign_levels_inv (y : vector) ids : forall i (lv : gmap node Qc) tr lv',
  assign_levels y i ids lv = (tr, inr lv') ->
  tr = [] /\ (length ids <= length y - i)%nat /\
  dom lv' = dom lv ∪ list_to_set ids /\
  (forall k, k ∉ ids -> lv' !! k = lv !! k) /\
  (NoDup ids -> forall j k, ids !! j = Some k -> lv' !! k = y !! (i + j)%nat).
Proof.
  induction ids as [|a rest IH]; intros i lv tr lv'; simpl.
  - intros [= <- <-]. repeat split; try lia; try set_solver.
  - destruct (y !! i) as [yi|] eqn:Ey; [|discriminate].
    intros Hrun. apply IH in Hrun as (-> & Hlen & Hdom & Hout & Hin).
    apply lookup_lt_Some in Ey as Hi.
    split; [reflexivity|]. split; [lia|]. split; [|split].
    + rewrite Hdom, dom_insert_L. set_solver.
    + intros k Hk. rewrite Hout by set_solver.
      apply lookup_insert_ne. set_solver.
    + intros Hnd j k Hj. apply NoDup_cons in Hnd as [Ha Hnd].
      destruct j as [|j]; simpl in Hj.
      * injection Hj as <-. rewrite Hout by assumption.
        rewrite lookup_insert_eq, Nat.add_0_r. now symmetry.
      * rewrite (Hin Hnd j k Hj). f_equal. lia.
Qed.

Lemma lookup_foldl_insert_const (zs : list node) (c : Qc) :
  forall (lv : gmap node Qc) k,
    foldl (fun lv node_id => <[node_id := c]> lv) lv zs !! k
    = if decide (k ∈ zs) then Some c else lv !! k.
Proof.
  induction zs as [|a rest IH]; intros lv k; simpl.
  - destruct (decide (k ∈ [])) as [Hk|Hk]; [|reflexivity].
    now apply not_elem_of_nil in Hk.
  - rewrite IH.
    destruct (decide (k ∈ rest)) as [Hr|Hr],
             (decide (k ∈ a :: rest)) as [Har|Har];
      try reflexivity; try (exfalso; set_solver).
    + apply elem_of_cons in Har as [->|?]; [|contradiction].
      apply lookup_insert_eq.
    + apply lookup_insert_ne. set_solver.
Qed.

Lemma Qcsum_map_zero {A} (f : A -> Qc) (l : list A) :
  (forall x, x ∈ l -> f x = 0) -> Qcsum (map f l) = 0.
Proof.
  induction l as [|x l IH]; intros Hf; simpl; [reflexivity|].
  rewrite Hf by set_solver. rewrite IH by set_solver. ring.
Qed.

Lemma in_degree_0_no_edge G u v :
  in_degree G v = 0%nat -> u ∈ nodes G -> adj G !! (u, v) = None.
Proof.
  unfold in_degree. intros Hlen Hu.
  apply nil_length_inv in Hlen.
  destruct (adj G !! (u, v)) as [attrs|] eqn:E; [|reflexivity].
  exfalso. apply (not_elem_of_nil u). rewrite <- Hlen.
  apply list_elem_of_filter. split; [|assumption].
  rewrite E. eauto.
Qed.

Lemma in_degree_0_k_in G weight v :
  in_degree G v = 0%nat -> k_in G weight v = 0.
Proof.
  intros Hdeg. unfold k_in. apply Qcsum_map_zero. intros u Hu.
  unfold spec_A, edge_weight.
  now rewrite (in_degree_0_no_edge G u v Hdeg Hu).
Qed.

Lemma filter_length_le_impl {A} (P Q : A -> Prop)
    `{!forall x, Decision (P x)} `{!forall x, Decision (Q x)} (l : list A) :
  (forall x, P x -> Q x) ->
  (length (filter P l) <= length (filter Q l))%nat.
Proof.
  intros HPQ. induction l as [|x l IH]; simpl; [lia|].
  rewrite !filter_cons.
  destruct (decide (P x)) as [HP|HP], (decide (Q x)) as [HQ|HQ]; simpl;
    try lia.
  exfalso. auto.
Qed.

Lemma filter_impl_eq {A} (P Q : A -> Prop)
    `{!forall x, Decision (P x)} `{!forall x, Decision (Q x)} (l : list A) :
  (forall x, P x -> Q x) ->
  (length (filter Q l) <= length (filter P l))%nat ->
  filter Q l = filter P l.
Proof.
  intros HPQ. induction l as [|x l IH]; simpl; [reflexivity|].
  pose proof (filter_length_le_impl P Q l HPQ) as Hle.
  rewrite !filter_cons.
  destruct (decide (P x)) as [HP|HP], (decide (Q x)) as [HQ|HQ]; simpl;
    intros Hlen.
  - f_equal. apply IH. lia.
  - exfalso. auto.
  - lia.
  - apply IH. lia.
Qed.

Lemma length_mat_sub_eye n (p : matrix) :
  length p = n -> length (mat_sub (eye n) p) = n.
Proof.
  intros Hp. unfold mat_sub. rewrite length_zip_with, length_eye. lia.
Qed.

Lemma length_level_system G weight :
  length (level_system G weight) = length (non_basal G weight).
Proof.
  unfold level_system. apply length_mat_sub_eye.
  unfold spec_P. now rewrite length_map.
Qed.

Lemma level_system_row G weight i r :
  level_system G weight !! i = Some r ->
  exists v, non_basal G weight !! i = Some v /\
    r = zip_with Qcminus (unit_vec (length (non_basal G weight)) i)
          (map (fun j => spec_A G weight v j / k_in G weight v)
               (non_basal G weight)).
Proof.
  unfold level_system, mat_sub, spec_P, eye. intros Hr.
  apply lookup_zip_with_Some in Hr as (e & p & -> & He & Hp).
  rewrite lookup_map in He. rewrite lookup_map in Hp.
  destruct (non_basal G weight !! i) as [v|] eqn:Ev; [|discriminate].
  exists v. split; [reflexivity|].
  rewrite lookup_seq_lt in He by (eapply lookup_lt_Some; eassumption).
  simpl in He, Hp. injection He as <-. injection Hp as <-.
  reflexivity.
Qed.


(** What a successful run went through. *)
Lemma trophic_levels_success fl G weight tr levels :
  trophic_levels fl G weight = (tr, inr levels) ->
  is_directed G = true /\
  exists ninv,
    inv_answer fl (level_system G weight) = Some ninv /\
    tr = [EvAdjacencyMatrix (length (nodes G));
          EvLinalgInv (length (non_basal G weight))] /\
    filter (fun v => in_degree G v <> 0%nat) (nodes G) = non_basal G weight /\
    assign_levels (map (fun s => s + 1) (sum_axis1 ninv)) 0
      (non_basal G weight)
      (foldl (fun lv node_id => <[node_id := 1]> lv) ∅
         (filter (fun v => in_degree G v = 0%nat) (nodes G)))
    = ([], inr levels).
Proof.
  intros Hrun.
  destruct (is_directed G) eqn:Hdir.
  2:{ unfold trophic_levels, not_implemented_for_undirected in Hrun.
      rewrite Hdir in Hrun. discriminate. }
  split; [reflexivity|].
  rewrite (trophic_levels_unfold fl) in Hrun by assumption.
  unfold np_linalg_inv in Hrun.
  destruct (inv_answer fl (level_system G weight)) as [ninv|] eqn:Einv.
  2:{ unfold mbind, comp_bind, emit, raise in Hrun. simpl in Hrun.
      discriminate. }
  exists ninv. split; [reflexivity|].
  unfold mbind, comp_bind, emit, mret, comp_ret in Hrun. simpl in Hrun.
  destruct (assign_levels _ 0 _ _) as [t' r] eqn:Eas.
  injection Hrun as <- ->.
  apply assign_levels_inv in Eas as Hinv.
  destruct Hinv as (-> & Hlen & _).
  apply inv_answer_shape in Einv as Hspec.
  destruct Hspec as (Hlninv & _).
  rewrite length_level_system in Hlninv.
  rewrite length_map in Hlen. unfold sum_axis1 in Hlen.
  rewrite length_map, Hlninv, Nat.sub_0_r in Hlen.
  assert (Hfil : filter (fun v => in_degree G v <> 0%nat) (nodes G)
                 = non_basal G weight).
  { unfold non_basal in *. apply filter_impl_eq; [|assumption].
    intros v Hv Hdeg. apply Hv. now apply in_degree_0_k_in. }
  rewrite length_level_system.
  split; [reflexivity|]. split; [assumption|].
  now rewrite <- Hfil.
Qed.



(** A node that no edge enters, or whose in-flow sums to zero, keeps the
    level one that the first loop gave it. *)
Lemma basal_level_one fl G weight tr levels v :
  trophic_levels fl G weight = (tr, inr levels) ->
  v ∈ nodes G ->
  in_degree G v = 0%nat \/ k_in G weight v = 0 ->
  levels !! v = Some 1.
Proof.
  intros Hrun Hv Hbasal.
  apply trophic_levels_success in Hrun
    as (_ & ninv & _ & _ & Hfil & Has).
  apply assign_levels_inv in Has as (_ & _ & _ & Hout & _).
  assert (Hnb : v ∉ non_basal G weight).
  { destruct Hbasal as [Hdeg|Hk].
    - rewrite <- Hfil. intros Hin.
      apply list_elem_of_filter in Hin as [Hne _]. contradiction.
    - intros Hin. apply list_elem_of_filter in Hin as [Hne _].
      contradiction. }
  rewrite Hout by assumption.
  rewrite lookup_foldl_insert_const.
  destruct (decide (v ∈ filter (fun v => in_degree G v = 0%nat) (nodes G)))
    as [Hz|Hz]; [reflexivity|].
  exfalso. apply Hz. apply list_elem_of_filter. split; [|assumption].
  destruct (decide (in_degree G v = 0%nat)) as [Hd|Hd]; [assumption|].
  exfalso. apply Hnb. rewrite <- Hfil.
  apply list_elem_of_filter. split; assumption.
Qed.

(** On success every node has a level. *)
Lemma levels_cover_nodes fl G weight tr levels v :
  trophic_levels fl G weight = (tr, inr levels) ->
  v ∈ nodes G -> is_Some (levels !! v).
Proof.
  intros Hrun Hv.
  destruct (decide (in_degree G v = 0%nat)) as [Hd|Hd].
  - rewrite (basal_level_one fl G weight tr levels v); eauto.
  - apply trophic_levels_success in Hrun
      as (_ & ninv & _ & _ & Hfil & Has).
    apply assign_levels_inv in Has as (_ & _ & Hdom & _).
    apply elem_of_dom. rewrite Hdom. apply elem_of_union_r.
    apply elem_of_list_to_set. rewrite <- Hfil.
    apply list_elem_of_filter. split; assumption.
Qed.

Lemma positive_k_in_0_in_degree G weight v :
  positive_weights G weight ->
  k_in G weight v = 0 -> in_degree G v = 0%nat.
Proof.
  intros Hpos Hk.
  destruct (decide (in_degree G v = 0%nat)) as [Hd|Hd]; [assumption|].
  exfalso. unfold in_degree in Hd.
  destruct (filter (fun u => is_Some (adj G !! (u, v))) (nodes G))
    as [|u rest] eqn:Ef; [now apply Hd|].
  assert (Hu : u ∈ filter (fun u => is_Some (adj G !! (u, v))) (nodes G)).
  { rewrite Ef. now left. }
  apply list_elem_of_filter in Hu as [[attrs Hattrs] Hu].
  assert (Hlt : 0 < k_in G weight v).
  { unfold k_in. apply (Qcsum_map_pos _ _ u); [|assumption|].
    - intros x _. unfold spec_A, edge_weight.
      destruct (adj G !! (x, v)) as [a|] eqn:Ea; [|apply Qcle_refl].
      apply Qclt_le_weak. exact (Hpos _ _ Ea).
    - unfold spec_A, edge_weight. rewrite Hattrs.
      exact (Hpos _ _ Hattrs). }
  rewrite Hk in Hlt. exact (Qclt_not_eq _ _ Hlt eq_refl).
Qed.

(** With no node of positive in-degree the system is empty, its inverse
    is taken all the same, and every node keeps level one. *)
Lemma all_basal_run fl G weight :
  is_directed G = true ->
  (forall v, v ∈ nodes G -> in_degree G v = 0%nat) ->
  trophic_levels fl G weight =
    ([EvAdjacencyMatrix (length (nodes G)); EvLinalgInv 0],
     inr (foldl (fun lv node_id => <[node_id := 1]> lv) ∅ (nodes G))).
Proof.
  intros Hdir Hall. rewrite trophic_levels_unfold by assumption.
  assert (Hnb : non_basal G weight = []).
  { unfold non_basal. apply filter_none. intros v Hv Hk. apply Hk.
    apply in_degree_0_k_in. now apply Hall. }
  unfold level_system, spec_P. rewrite Hnb.
  rewrite (filter_none (fun v => in_degree G v <> 0%nat)).
  2:{ intros v Hv Hne. apply Hne. now apply Hall. }
  rewrite (filter_all (fun v => in_degree G v = 0%nat)) by assumption.
  reflexivity.
Qed.

(** Without basal nodes each row of [P] sums to one, so [I - P] sends
    the all-ones vector to zero. *)
Lemma no_basal_singular G weight :
  nodes G <> [] ->
  Forall (fun v => k_in G weight v <> 0) (nodes G) ->
  singular (level_system G weight).
Proof.
  intros Hne Hall.
  assert (Hnb : non_basal G weight = nodes G).
  { unfold non_basal. apply filter_all. now apply Forall_forall. }
  exists (repeat 1 (length (level_system G weight))).
  split; [apply repeat_length|]. split.
  - rewrite length_level_system, Hnb.
    destruct (nodes G) as [|v l]; [contradiction|]. simpl.
    intros Heq. discriminate Heq.
  - unfold mat_vec. apply map_const_repeat. intros r Hr.
    apply list_elem_of_lookup in Hr as [i Hi].
    apply lookup_lt_Some in Hi as Hlt.
    rewrite length_level_system in Hlt |- *.
    apply level_system_row in Hi as (v & Hv & ->).
    assert (Hk : k_in G weight v <> 0).
    { rewrite Forall_forall in Hall. apply Hall. rewrite <- Hnb.
      eapply list_elem_of_lookup_2; eassumption. }
    rewrite dot_ones_r.
    2:{ rewrite length_zip_with, length_unit_vec, length_map. lia. }
    rewrite Qcsum_zip_minus by now rewrite length_unit_vec, length_map.
    rewrite Qcsum_unit_vec by assumption.
    rewrite Qcsum_map_div. rewrite Hnb.
    change (Qcsum (map (spec_A G weight v) (nodes G)))
      with (k_in G weight v).
    unfold Qcdiv. rewrite Qcmult_inv_r by assumption. ring.
Qed.




End TrophicFacts.

(** ** The level solver *)

Section LevelClaims.

Context {node : Type} `{Countable node}.
Implicit Types (G : Graph node) (weight : option string) (fl : float_inv).


(** C2: on every graph on which [trophic_levels] succeeds, a node that no
    edge enters (equivalently, one whose in-degree weights sum to zero) is
    mapped to level 1 exactly. *)
Theorem C2_in_degree_zero_level_one fl G weight tr levels v :
  trophic_levels fl G weight = (tr, inr levels) ->
  v ∈ nodes G ->
  in_degree G v = 0%nat \/ k_in G weight v = 0 ->
  levels !! v = Some 1.
Proof. apply basal_level_one. Qed.

(** C4: on every undirected graph [trophic_levels] raises
    [NetworkXNotImplemented] at once: no adjacency matrix is built and no
    matrix is inverted. *)
Theorem C4_undirected_fails_fast fl G weight :
  is_directed G = false ->
  trophic_levels fl G weight = ([], inl NetworkXNotImplemented).
Proof.
  intros Hdir. unfold trophic_levels, not_implemented_for_undirected.
  now rewrite Hdir.
Qed.

(** C5, as amended: on every directed graph with positive weights that is
    empty or whose nodes are all basal, [trophic_levels] does not fail and
    maps every node to level 1; the inversion is not skipped, it is run on
    the 0x0 system and answers the 0x0 inverse. *)
Theorem C5_all_basal_levels_one fl G weight :
  is_directed G = true ->
  positive_weights G weight ->
  Forall (fun v => k_in G weight v = 0) (nodes G) ->
  exists levels,
    trophic_levels fl G weight =
      ([EvAdjacencyMatrix (length (nodes G)); EvLinalgInv 0], inr levels) /\
    forall v, levels !! v = if decide (v ∈ nodes G) then Some 1 else None.
Proof.
  intros Hdir Hpos Hall. eexists. split.
  - apply all_basal_run; [assumption|]. intros v Hv.
    apply (positive_k_in_0_in_degree G weight); [assumption|].
    rewrite Forall_forall in Hall. now apply Hall.
  - intros v. rewrite lookup_foldl_insert_const.
    destruct (decide (v ∈ nodes G)); [reflexivity | apply lookup_empty].
Qed.

End LevelClaims.

(** ** The solver on the graphs of the test suite *)

Local Ltac by_computation := apply (bool_decide_unpack _); vm_compute; exact I.





(** Node [a] of the chain has no entering edge. *)
Lemma C2_witness : chain_levels !! "a" = Some 1.
Proof.
  apply (C2_in_degree_zero_level_one exact_arithmetic chain_abc
           (Some "weight") [EvAdjacencyMatrix 3; EvLinalgInv 2]
           chain_levels "a").
  - apply (bool_decide_unpack _); vm_compute; exact I.
  - apply (bool_decide_unpack _); vm_compute; exact I.
  - left. vm_compute. reflexivity.
Defined.

(** C3 holds of exact arithmetic and fails on the program.  On
    [loop_pair] an edge enters every node, the weights are positive and
    [I - P] is singular; float64 misses the zero pivot (see
    [missed_pivot]) and the run returns a mapping, with levels of the order
    of [1.5e16], where the claim and the docstring of
    [test_trophic_levels_singular_matrix] want [LinAlgError]. *)
Theorem C3_missed_singularity_returns :
  Forall (fun v => in_degree loop_pair v <> 0%nat) (nodes loop_pair) /\
  positive_weights loop_pair (Some "weight") /\
  singular (level_system loop_pair (Some "weight")) /\
  trophic_levels missed_pivot loop_pair (Some "weight")
  = ([EvAdjacencyMatrix 2; EvLinalgInv 2], inr loop_pair_levels).
Proof.
  split; [by_computation|]. split; [by_computation|]. split.
  - apply no_basal_singular; [discriminate | by_computation].
  - by_computation.
Qed.

(** Positive weights do not keep the levels above one where float64
    misses a singular system. *)
Example heavy_loop_run :
  positive_weights heavy_loop (Some "weight") /\
  singular (level_system heavy_loop (Some "weight")) /\
  trophic_levels missed_pivot heavy_loop (Some "weight")
  = ([EvAdjacencyMatrix 2; EvLinalgInv 2],
     inr {[0%nat := Q2Qc (-21617278211378379);
           1%nat := Q2Qc (-21617278211378380)]}).
Proof.
  split; [by_computation|]. split.
  - apply no_basal_singular; [discriminate | by_computation].
  - by_computation.
Qed.

(** The four self-loops of [test_trophic_levels_singular_matrix]: the
    system is the zero matrix, the first pivot is zero in float64 as it is
    in exact arithmetic, and the inversion raises. *)
Example self_loops4_run :
  trophic_levels exact_arithmetic self_loops4 (Some "weight")
  = ([EvAdjacencyMatrix 4; EvLinalgInv 4], inl LinAlgError).
Proof. by_computation. Qed.

(** An undirected graph with one edge. *)
Lemma C4_witness :
  trophic_levels exact_arithmetic undirected_ab (Some "weight")
  = ([], inl NetworkXNotImplemented).
Proof.
  apply (C4_undirected_fails_fast exact_arithmetic undirected_ab
           (Some "weight")).
  reflexivity.
Defined.

(** C5, as stated, fails on the graph of one isolated node: the run
    inverts the 0x0 system instead of skipping the step. *)
Lemma C5_counterexample :
  ~ (is_directed isolated_node = true ->
     Forall (fun v => k_in isolated_node (Some "weight") v = 0)
       (nodes isolated_node) ->
     (exists levels,
        outcome (trophic_levels exact_arithmetic isolated_node
                   (Some "weight")) = inr levels /\
        forall v, v ∈ nodes isolated_node -> levels !! v = Some 1) /\
     solve_skipped (trophic_levels exact_arithmetic isolated_node
                      (Some "weight"))).
Proof.
  intros Hclaim.
  destruct Hclaim as [_ Hskip]; [reflexivity | |].
  - repeat constructor.
  - apply (Hskip 0%nat). vm_compute. right. left.
Qed.

(** One isolated node. *)
Lemma C5_witness :
  exists levels,
    trophic_levels exact_arithmetic isolated_node (Some "weight") =
      ([EvAdjacencyMatrix (length (nodes isolated_node)); EvLinalgInv 0],
       inr levels) /\
    forall v, levels !! v
              = if decide (v ∈ nodes isolated_node) then Some 1 else None.
Proof.
  apply (C5_all_basal_levels_one exact_arithmetic isolated_node
           (Some "weight")).
  - reflexivity.
  - apply (bool_decide_unpack _); vm_compute; exact I.
  - apply (bool_decide_unpack _); vm_compute; exact I.
Defined.

(** C6, as stated, fails: with the single edge [0 -> 1] the mapping
    [{0: 2, 1: 1}] is not what the run returns. *)
Lemma C6_counterexample :
  outcome (trophic_levels exact_arithmetic edge_0_1 (Some "weight"))
  <> inr {[0%nat := Q2Qc 2; 1%nat := 1]}.
Proof. by_computation. Qed.

(** C6, as amended: with the single unit-weight edge [0 -> 1] the source 0
    keeps level 1 and the target 1 gets level 2; the mapping
    [{0: 2, 1: 1}] is returned for the single edge [1 -> 0], the graph of
    the test. *)
Theorem C6_single_edge_levels (fl : float_inv) :
  outcome (trophic_levels fl edge_0_1 (Some "weight"))
    = inr {[0%nat := 1; 1%nat := Q2Qc 2]} /\
  outcome (trophic_levels fl edge_1_0 (Some "weight"))
    = inr {[0%nat := Q2Qc 2; 1%nat := 1]}.
Proof. split; by_computation. Qed.

(** C7: on the chain [a -> b -> c] with unit weights the run returns
    exactly [{a: 1, b: 2, c: 3}]. *)
Theorem C7_chain_levels (fl : float_inv) :
  trophic_levels fl chain_abc (Some "weight")
  = ([EvAdjacencyMatrix 3; EvLinalgInv 2], inr chain_levels).
Proof. by_computation. Qed.

(** C8: on the four-node graph with edges 0->1, 0->2, 1->2, 1->3, 2->3 of
    unit weight the levels are 1, 2, 5/2 and 13/4, hence within 1e-7 of
    [1, 2, 2.5, 3.25]. *)
Theorem C8_dag4_levels (fl : float_inv) :
  outcome (trophic_levels fl dag4 (Some "weight")) = inr dag4_levels /\
  forall i e,
    [1; Q2Qc 2; Q2Qc (25 # 10); Q2Qc (325 # 100)] !! i = Some e ->
    exists l, dag4_levels !! i = Some l /\ within_tolerance l e.
Proof.
  split; [by_computation|].
  intros i e Hi.
  assert (Htol : forall x, within_tolerance x x).
  { intros x. unfold within_tolerance.
    replace (x - x) with 0 by ring. split; by_computation. }
  destruct i as [|[|[|[|i]]]]; simpl in Hi; try discriminate;
    injection Hi as <-.
  - exists 1. split; [by_computation | apply Htol].
  - exists (Q2Qc 2). split; [by_computation | apply Htol].
  - exists (Q2Qc (5 # 2)). split; [by_computation|].
    replace (Q2Qc (25 # 10)) with (Q2Qc (5 # 2)) by by_computation.
    apply Htol.
  - exists (Q2Qc (13 # 4)). split; [by_computation|].
    replace (Q2Qc (325 # 100)) with (Q2Qc (13 # 4)) by by_computation.
    apply Htol.
Qed.

(** ** Differences and coherence *)

Section DerivedClaims.

Context {node : Type} `{Countable node}.
Implicit Types (G : Graph node) (weight : option string).

Lemma lookup_computeDifferences G (levels : gmap node Qc) j i :
  computeDifferences G levels !! (j, i)
  = match adj G !! (j, i) with
    | Some _ => Some (default 0 (levels !! i) - default 0 (levels !! j))
    | None => None
    end.
Proof.
  unfold computeDifferences. rewrite map_lookup_imap.
  destruct (adj G !! (j, i)); reflexivity.
Qed.

(** C9: on every graph whose levels are computed, the differences have
    exactly one entry per edge [(j, i)], equal to [levels[i] - levels[j]];
    a self-loop is kept, with difference 0. *)
Theorem C9_differences_per_edge fl G weight tr levels :
  edges_closed G ->
  trophic_levels fl G weight = (tr, inr levels) ->
  trophic_differences fl G weight = (tr, inr (computeDifferences G levels)) /\
  dom (computeDifferences G levels) = dom (adj G) /\
  (forall j i, is_Some (adj G !! (j, i)) ->
     exists lj li, levels !! j = Some lj /\ levels !! i = Some li /\
       computeDifferences G levels !! (j, i) = Some (li - lj)) /\
  (forall i, is_Some (adj G !! (i, i)) ->
     computeDifferences G levels !! (i, i) = Some 0).
Proof.
  intros Hclosed Hrun. split; [|split; [|split]].
  - unfold trophic_differences. rewrite Hrun.
    unfold mbind, comp_bind, mret, comp_ret. simpl.
    now rewrite app_nil_r.
  - apply set_eq. intros [j i]. rewrite !elem_of_dom.
    rewrite lookup_computeDifferences.
    destruct (adj G !! (j, i)); split; intros [x Hx]; eauto; discriminate.
  - intros j i [attrs Hji].
    destruct (Hclosed _ _ Hji) as [Hj Hi]. simpl in Hj, Hi.
    destruct (levels_cover_nodes fl G weight tr levels j Hrun Hj) as [lj Hlj].
    destruct (levels_cover_nodes fl G weight tr levels i Hrun Hi) as [li Hli].
    exists lj, li. repeat split; try assumption.
    rewrite lookup_computeDifferences, Hji, Hlj, Hli. reflexivity.
  - intros i [attrs Hii].
    rewrite lookup_computeDifferences, Hii. f_equal. ring.
Qed.

(** The differences, listed: one value per edge of the graph. *)
Lemma map_to_list_computeDifferences G (levels : gmap node Qc) :
  map_to_list (computeDifferences G levels)
  ≡ₚ map (fun kv => (kv.1, level_of levels kv.1.2 - level_of levels kv.1.1))
       (map_to_list (adj G)).
Proof.
  apply NoDup_Permutation.
  - apply NoDup_map_to_list.
  - apply (NoDup_fmap_1 fst).
    change (map ?f ?l) with (f <$> l). rewrite <- list_fmap_compose.
    apply NoDup_fst_map_to_list.
  - intros [[j i] x]. rewrite elem_of_map_to_list, lookup_computeDifferences.
    change (map ?f ?l) with (f <$> l). rewrite list_elem_of_fmap. split.
    + destruct (adj G !! (j, i)) as [attrs|] eqn:Hji; [|discriminate].
      intros Hx. apply (inj Some) in Hx. subst x.
      exists ((j, i), attrs). split; [reflexivity|].
      now apply elem_of_map_to_list.
    + intros ([[j' i'] attrs] & Heq & Hin). simpl in Heq.
      apply pair_equal_spec in Heq as [Hk ->].
      apply pair_equal_spec in Hk as [-> ->].
      apply elem_of_map_to_list in Hin. rewrite Hin. reflexivity.
Qed.

Lemma diff_values_per_edge G (levels : gmap node Qc) :
  diff_values (computeDifferences G levels)
  ≡ₚ map (fun kv => Q2R (this (level_of levels kv.1.2
                               - level_of levels kv.1.1)))
       (map_to_list (adj G)).
Proof.
  unfold diff_values. rewrite map_to_list_computeDifferences.
  rewrite map_map. reflexivity.
Qed.

Lemma Rsum_squares_nonneg (f : R -> R) (xs : list R) :
  (0 <= Rsum (map (fun x => f x ^ 2)%R xs))%R.
Proof.
  unfold Rsum. induction xs as [|x xs IH]; cbn [map foldr]; [lra|].
  pose proof (pow2_ge_0 (f x)). lra.
Qed.

(** What [pstdev] answers on values: the square root of the mean of the
    squared deviations from the mean, all sums divided by the number of
    values. *)
Lemma pstdev_Some (xs : list R) :
  xs <> [] ->
  exists q mu,
    pstdev xs = Some q /\ (0 <= q)%R /\
    (mu * INR (length xs) = Rsum xs)%R /\
    (q * q * INR (length xs) = Rsum (map (fun x => (x - mu) ^ 2)%R xs))%R.
Proof.
  intros Hne. destruct xs as [|x xs]; [contradiction|].
  set (l := x :: xs) in *.
  assert (Hn : (0 < INR (length l))%R) by (apply lt_0_INR; simpl; lia).
  exists (sqrt (Rmean (map (fun y => (y - Rmean l) ^ 2)%R l))), (Rmean l).
  split; [reflexivity|]. split; [apply sqrt_pos|]. split.
  - unfold Rmean. field. lra.
  - rewrite sqrt_sqrt.
    + unfold Rmean at 1. rewrite length_map. field. lra.
    + unfold Rmean at 1. rewrite length_map.
      apply Rmult_le_pos; [apply Rsum_squares_nonneg|].
      left. now apply Rinv_0_lt_compat.
Qed.

(** C10: on a graph without self-loops the coherence that excludes
    cannibalism is the one that includes it.  When the levels are computed
    both are the population standard deviation of the differences of the
    edges: a number [q >= 0] with [q^2 * n] the sum of the squared
    deviations of the [n] differences from their mean (no value on a graph
    without edges); when the levels fail, both fail alike. *)
Theorem C10_coherence_without_self_loops fl G weight :
  no_self_loops G ->
  trophic_coherence fl G weight false = trophic_coherence fl G weight true /\
  (forall tr e, trophic_levels fl G weight = (tr, inl e) ->
     trophic_coherence fl G weight true = (tr, inl e)) /\
  forall tr levels, trophic_levels fl G weight = (tr, inr levels) ->
    exists xs : list R,
      xs ≡ₚ map (fun kv => Q2R (this (level_of levels kv.1.2
                                     - level_of levels kv.1.1)))
              (map_to_list (adj G)) /\
      computeCoherence G levels false = pstdev xs /\
      trophic_coherence fl G weight true = (tr, inr (pstdev xs)) /\
      (adj G = ∅ -> pstdev xs = None) /\
      (adj G <> ∅ ->
       exists q mu,
         pstdev xs = Some q /\ (0 <= q)%R /\
         (mu * INR (length xs) = Rsum xs)%R /\
         (q * q * INR (length xs)
          = Rsum (map (fun x => (x - mu) ^ 2)%R xs))%R).
Proof.
  intros Hloops.
  assert (Heq : forall lv : gmap node Qc,
             computeCoherence G lv false = computeCoherence G lv true).
  { intros lv. unfold computeCoherence. f_equal. f_equal.
    apply map_filter_id. intros [j i] x Hx. simpl.
    rewrite lookup_computeDifferences in Hx.
    destruct (adj G !! (j, i)) as [attrs|] eqn:Hji; [|discriminate].
    exact (Hloops _ _ Hji). }
  split; [|split].
  - unfold trophic_coherence.
    destruct (trophic_levels fl G weight) as [t [e|lv]];
      unfold mbind, comp_bind, mret, comp_ret; simpl; [reflexivity|].
    now rewrite Heq.
  - intros tr e Hrun. unfold trophic_coherence. rewrite Hrun. reflexivity.
  - intros tr levels Hrun.
    exists (diff_values (computeDifferences G levels)).
    pose proof (diff_values_per_edge G levels) as Hperm.
    split; [exact Hperm|]. split; [now rewrite Heq|]. split; [|split].
    + unfold trophic_coherence. rewrite Hrun.
      unfold mbind, comp_bind, mret, comp_ret. simpl.
      now rewrite app_nil_r.
    + intros Hempty. rewrite Hempty in Hperm. rewrite map_to_list_empty in Hperm.
      apply Permutation_nil_r in Hperm. now rewrite Hperm.
    + intros Hedges. apply pstdev_Some. intros Hnil.
      rewrite Hnil in Hperm. symmetry in Hperm.
      apply Permutation_nil_r in Hperm.
      apply map_eq_nil, map_to_list_empty_iff in Hperm. contradiction.
Qed.

End DerivedClaims.

(** The five-node web, self-loop included. *)
Lemma C9_witness :
  trophic_differences exact_arithmetic web5 (Some "weight")
  = ([EvAdjacencyMatrix 5; EvLinalgInv 3],
     inr (computeDifferences web5 web5_levels)) /\
  dom (computeDifferences web5 web5_levels) = dom (adj web5) /\
  (forall j i, is_Some (adj web5 !! (j, i)) ->
     exists lj li, web5_levels !! j = Some lj /\ web5_levels !! i = Some li /\
       computeDifferences web5 web5_levels !! (j, i) = Some (li - lj)) /\
  (forall i, is_Some (adj web5 !! (i, i)) ->
     computeDifferences web5 web5_levels !! (i, i) = Some 0).
Proof.
  apply (C9_differences_per_edge exact_arithmetic web5 (Some "weight")
           [EvAdjacencyMatrix 5; EvLinalgInv 3] web5_levels).
  - apply (bool_decide_unpack _); vm_compute; exact I.
  - apply (bool_decide_unpack _); vm_compute; exact I.
Defined.

(** The four-node graph has no self-loop; its five differences are
    1, 3/2, 1/2, 5/4 and 3/4. *)
Lemma C10_witness :
  trophic_coherence exact_arithmetic dag4 (Some "weight") false
  = trophic_coherence exact_arithmetic dag4 (Some "weight") true /\
  exists xs : list R,
    xs ≡ₚ map (fun kv => Q2R (this (level_of dag4_levels kv.1.2
                                   - level_of dag4_levels kv.1.1)))
            (map_to_list (adj dag4)) /\
    computeCoherence dag4 dag4_levels false = pstdev xs /\
    trophic_coherence exact_arithmetic dag4 (Some "weight") true
    = ([EvAdjacencyMatrix 4; EvLinalgInv 3], inr (pstdev xs)) /\
    (adj dag4 = ∅ -> pstdev xs = None) /\
    (adj dag4 <> ∅ ->
     exists q mu,
       pstdev xs = Some q /\ (0 <= q)%R /\
       (mu * INR (length xs) = Rsum xs)%R /\
       (q * q * INR (length xs)
        = Rsum (map (fun x => (x - mu) ^ 2)%R xs))%R).
Proof.
  destruct (C10_coherence_without_self_loops exact_arithmetic dag4
              (Some "weight")) as (Heq & _ & Hok).
  - apply (bool_decide_unpack _); vm_compute; exact I.
  - split; [exact Heq|].
    apply (Hok [EvAdjacencyMatrix 4; EvLinalgInv 3] dag4_levels).
    apply (bool_decide_unpack _); vm_compute; exact I.
Defined.

(** ** Further scenarios of the test suite *)

Example chain4_levels (fl : float_inv) :
  outcome (trophic_levels fl chain4 (Some "weight"))
  = inr {[0%nat := 1; 1%nat := Q2Qc 2; 2%nat := Q2Qc 3; 3%nat := Q2Qc 4]}.
Proof. by_computation. Qed.

Example web5_run (fl : float_inv) :
  trophic_levels fl web5 (Some "weight")
  = ([EvAdjacencyMatrix 5; EvLinalgInv 3], inr web5_levels).
Proof. by_computation. Qed.

(** Without a weight attribute every edge counts for one. *)
Example dag4_unweighted (fl : float_inv) :
  outcome (trophic_levels fl dag4 None) = inr dag4_levels.
Proof. by_computation. Qed.

(** The mask uses the weighted row sums and the two loops the number of
    entering edges: on an edge of weight zero they disagree, and [y[i]]
    is read out of range. *)
Example zero_weight_loop_run (fl : float_inv) :
  trophic_levels fl zero_weight_loop (Some "weight")
  = ([EvAdjacencyMatrix 1; EvLinalgInv 0], inl IndexError).
Proof. by_computation. Qed.

Example dag4_differences (fl : float_inv) :
  outcome (trophic_differences fl dag4 (Some "weight"))
  = inr {[(0, 1)%nat := 1; (0, 2)%nat := Q2Qc (3 # 2);
          (1, 2)%nat := Q2Qc (1 # 2); (1, 3)%nat := Q2Qc (5 # 4);
          (2, 3)%nat := Q2Qc (3 # 4)]}.
Proof. by_computation. Qed.

Lemma web5_differences :
  map_to_list (computeDifferences web5 web5_levels)
  = [((2, 0)%nat, 1); ((4, 3)%nat, Q2Qc 4); ((1, 3)%nat, Q2Qc (-2));
     ((1, 1)%nat, 0); ((3, 1)%nat, Q2Qc 2)].
Proof. vm_compute. reflexivity. Qed.

(** [trophic_coherence(G, cannibalism=True)] is 2 on the five-node web. *)
Example web5_coherence :
  computeCoherence web5 web5_levels true = Some 2%R.
Proof.
  unfold computeCoherence, diff_values. rewrite web5_differences.
  unfold pstdev, Rmean, Rsum. cbn [map fst snd length foldr].
  f_equal.
  change (this 1) with 1%Q. change (this 0) with 0%Q.
  change (this (Q2Qc 4)) with 4%Q.
  change (this (Q2Qc (-2))) with (-2)%Q.
  change (this (Q2Qc 2)) with 2%Q.
  unfold Q2R. cbn [Qnum Qden INR].
  match goal with
  | |- sqrt ?e = _ => replace e with (2 * 2)%R by (simpl; field)
  end.
  apply sqrt_square. lra.
Qed.

Lemma dag4_difference_list :
  map_to_list (computeDifferences dag4 dag4_levels)
  = [((0, 2)%nat, Q2Qc (3 # 2)); ((2, 3)%nat, Q2Qc (3 # 4));
     ((0, 1)%nat, 1); ((1, 2)%nat, Q2Qc (1 # 2));
     ((1, 3)%nat, Q2Qc (5 # 4))].
Proof. by_computation. Qed.

(** The second graph of [test_trophic_coherence_no_cannibalism]: the
    coherence is [np.std([1, 1.5, 0.5, 0.75, 1.25])], the square root of
    1/8. *)
Example dag4_coherence :
  computeCoherence dag4 dag4_levels true = Some (sqrt (1 / 8))%R.
Proof.
  unfold computeCoherence, diff_values. rewrite dag4_difference_list.
  unfold pstdev, Rmean, Rsum. cbn [map fst snd length foldr].
  f_equal. f_equal.
  change (this 1) with 1%Q.
  change (this (Q2Qc (3 # 2))) with (3 # 2)%Q.
  change (this (Q2Qc (3 # 4))) with (3 # 4)%Q.
  change (this (Q2Qc (1 # 2))) with (1 # 2)%Q.
  change (this (Q2Qc (5 # 4))) with (5 # 4)%Q.
  unfold Q2R. cbn [Qnum Qden INR]. simpl. field.
Qed.

(** Excluding cannibalism drops the self-loop and nothing else. *)
Example web5_without_cannibalism :
  map_to_list (filter (fun kv : nat * nat * Qc => kv.1.1 <> kv.1.2)
                 (computeDifferences web5 web5_levels))
  = [((2, 0)%nat, 1); ((4, 3)%nat, Q2Qc 4); ((1, 3)%nat, Q2Qc (-2));
     ((3, 1)%nat, Q2Qc 2)].
Proof. vm_compute. reflexivity. Qed.

(** ** How a run ends *)

Section RunFacts.

Context {node : Type} `{Countable node}.
Implicit Types (G : Graph node) (weight : option string) (fl : float_inv).










(** X5: the keys of the returned dictionary are exactly the nodes of the
    graph. *)
Theorem X5_keys_are_the_nodes fl G weight tr levels :
  trophic_levels fl G weight = (tr, inr levels) ->
  dom levels = list_to_set (nodes G).
Proof.
  intros Hrun.
  apply trophic_levels_success in Hrun as (_ & ninv & _ & _ & Hfil & Has).
  apply assign_levels_inv in Has as (_ & _ & Hdom & _).
  rewrite Hdom, <- Hfil. apply set_eq. intros v.
  rewrite elem_of_union, elem_of_dom, lookup_foldl_insert_const,
    !elem_of_list_to_set, lookup_empty.
  destruct (decide (v ∈ filter (fun v => in_degree G v = 0%nat) (nodes G)))
    as [Hz|Hz].
  - split; [|eauto]. intros _. now apply list_elem_of_filter in Hz as [_ ?].
  - rewrite list_elem_of_filter. split.
    + intros [[x [=]]|[_ Hv]]. assumption.
    + intros Hv. right. split; [|assumption]. intros Hd. apply Hz.
      apply list_elem_of_filter. split; assumption.
Qed.

End RunFacts.

(** ** The equations of the docstring *)
















Section Equations.

Context {node : Type} `{Countable node}.
Implicit Types (G : Graph node) (weight : option string) (s : node -> Qc).
Implicit Types (fl : float_inv).



















End Equations.

(** ** The system over all the nodes *)

Section FullSystem.

Context {node : Type} `{Countable node}.
Implicit Types (G : Graph node) (weight : option string) (s : node -> Qc).
Implicit Types (fl : float_inv).








End FullSystem.

(** ** The further properties on the graphs of the test suite *)

(** Levine's food web: the exact levels, each within the tolerance of the
    decimals that the test expects. *)
Example levine_run (fl : float_inv) :
  trophic_levels fl levine (Some "weight")
  = ([EvAdjacencyMatrix 5; EvLinalgInv 4], inr levine_levels).
Proof. by_computation. Qed.

Example levine_expected :
  within_tolerance (Q2Qc (662 # 215)) (Q2Qc (307906977 # 100000000)) /\
  within_tolerance (Q2Qc (106 # 43)) (Q2Qc (246511628 # 100000000)) /\
  within_tolerance (Q2Qc (143 # 43)) (Q2Qc (33255814 # 10000000)).
Proof. unfold within_tolerance. repeat split; by_computation. Qed.




(** The keys are the nodes also where float64 misses the singularity. *)
Lemma X5_witness : dom loop_pair_levels = list_to_set (nodes loop_pair).
Proof.
  apply (X5_keys_are_the_nodes missed_pivot loop_pair (Some "weight")
           [EvAdjacencyMatrix 2; EvLinalgInv 2] loop_pair_levels).
  apply (bool_decide_unpack _); vm_compute; exact I.
Defined.






